(** * facematch.face_matching: matching detected faces against references

    Shallow embedding of [src/facematch/face_matching.py]:
    the function [find_closest] and the method [FaceMatcher.recoginze].

    Array entries, similarity scores and thresholds are integers ([Z]),
    compared as integers.  The arithmetic of [np.dot] is that of the
    arrays' dtype ([np.dtype]): it may round or wrap around, and the
    properties below hold for every dtype.  Embeddings are real-valued
    (section 3 of the specification): NaN is not a scalar of the model. *)

From Stdlib Require Import String Bool ZArith Lia List Permutation Sorted.
Import ListNotations.
Open Scope Z_scope.

(** ** Exceptions and the error monad *)

(** The two Python exceptions the matching code can raise by itself:
    numpy raises [ValueError] on misaligned shapes and on a reduction over
    an empty axis (the failure the specification calls InvalidInput);
    list indexing raises [IndexError]. *)
Inductive exception : Type :=
| ValueError
| IndexError.

Definition Exc (A : Type) : Type := (exception + A)%type.

Definition ret {A} (a : A) : Exc A := inr a.
Definition raise {A} (e : exception) : Exc A := inl e.
Definition bind {A B} (m : Exc A) (k : A -> Exc B) : Exc B :=
  match m with
  | inl e => inl e
  | inr a => k a
  end.

Notation "x <- m ;; k" := (bind m (fun x => k))
  (at level 61, m at next level, right associativity).

(** ** The fragment of numpy used by [find_closest] *)

Module np.

(** A two-dimensional array of shape [(length rows, ncols)].  The column
    count is stored because an array with no rows still has one. *)
Record ndarray : Type := mk_ndarray {
  ncols : nat;
  rows : list (list Z)
}.

Definition nrows (a : ndarray) : nat := length (rows a).

(** Every row has [ncols] entries: what numpy guarantees of any array. *)
Definition rectangular (a : ndarray) : bool :=
  forallb (fun r => Nat.eqb (length r) (ncols a)) (rows a).

(** The dtype of the arrays of a run.  [inner u v] is the entry [np.dot]
    computes from a row [u] and a column [v] in that dtype: numpy rounds
    the products and sums (float32, float64) or lets them wrap around
    (int64), in an order of summation of its own. *)
Class dtype : Type := { inner : list Z -> list Z -> Z }.

(** [dtype=object] holding Python integers: unbounded, exact. *)
Fixpoint object_inner (u v : list Z) : Z :=
  match u, v with
  | x :: u', y :: v' => x * y + object_inner u' v'
  | _, _ => 0
  end.

#[global] Instance object_ : dtype := {| inner := object_inner |}.

(** [int64]: every product and sum wraps around into [-2^63, 2^63). *)
Definition wrap64 (z : Z) : Z := (z + 2 ^ 63) mod 2 ^ 64 - 2 ^ 63.

Fixpoint int64_inner (u v : list Z) : Z :=
  match u, v with
  | x :: u', y :: v' => wrap64 (wrap64 (x * y) + int64_inner u' v')
  | _, _ => 0
  end.

Definition int64 : dtype := {| inner := int64_inner |}.

(** [float64] on integer-valued entries: every product and sum is rounded
    to 53 significant bits, ties to even (overflow to infinity aside). *)
Definition round53 (z : Z) : Z :=
  let a := Z.abs z in
  let e := Z.log2 a - 52 in
  if e <=? 0 then z
  else
    let q := Z.shiftr a e in
    let r := a - Z.shiftl q e in
    let half := 2 ^ (e - 1) in
    let q' := if r <? half then q
              else if half <? r then q + 1
              else if Z.even q then q else q + 1 in
    Z.sgn z * Z.shiftl q' e.

Fixpoint float64_inner (u v : list Z) : Z :=
  match u, v with
  | x :: u', y :: v' => round53 (round53 (x * y) + float64_inner u' v')
  | _, _ => 0
  end.

Definition float64 : dtype := {| inner := float64_inner |}.

Definition column (a : ndarray) (j : nat) : list Z :=
  map (fun r => nth j r 0) (rows a).

(** [a.T] *)
Definition T (a : ndarray) : ndarray :=
  {| ncols := nrows a;
     rows := map (column a) (seq 0 (ncols a)) |}.

(** [np.dot(a, b)] on two-dimensional arrays: the matrix product, or
    [ValueError] when the shapes are not aligned. *)
Definition dot {dt : dtype} (a b : ndarray) : Exc ndarray :=
  if Nat.eqb (ncols a) (nrows b)
  then ret {| ncols := ncols b;
              rows := map (fun u => map (fun j => inner u (column b j))
                                        (seq 0 (ncols b)))
                          (rows a) |}
  else raise ValueError.

(** The scan of numpy's argmax over one row: the running maximum [best]
    sits at index [best_i]; a later entry replaces it only when strictly
    greater. *)
Fixpoint argmax_from (best_i : nat) (best : Z) (i : nat) (l : list Z) : nat :=
  match l with
  | [] => best_i
  | x :: t =>
      if best <? x
      then argmax_from i x (S i) t
      else argmax_from best_i best (S i) t
  end.

Definition argmax_row (r : list Z) : nat :=
  match r with
  | [] => 0%nat
  | x :: t => argmax_from 0 x 1 t
  end.

Definition max_row (r : list Z) : Z :=
  match r with
  | [] => 0
  | x :: t => fold_left Z.max t x
  end.

(** [a.argmax(axis=1)]: fails when the reduced axis is empty. *)
Definition argmax_axis1 (a : ndarray) : Exc (list nat) :=
  if Nat.eqb (ncols a) 0
  then raise ValueError
  else ret (map argmax_row (rows a)).

(** [a.max(axis=1)]: fails when the reduced axis is empty. *)
Definition max_axis1 (a : ndarray) : Exc (list Z) :=
  if Nat.eqb (ncols a) 0
  then raise ValueError
  else ret (map max_row (rows a)).

End np.

(** ** [find_closest] *)

Definition find_closest {dt : np.dtype} (embeddings references : np.ndarray)
  : Exc (list nat * list Z) :=
  cosines <- np.dot embeddings (np.T references) ;;
  best_matches <- np.argmax_axis1 cosines ;;
  distances <- np.max_axis1 cosines ;;
  ret (best_matches, distances).

(** ** Python builtins used by [recoginze] *)

(** [l[i]] for a list and a non-negative index. *)
Definition getitem {A} (l : list A) (i : nat) : Exc A :=
  match nth_error l i with
  | Some a => ret a
  | None => raise IndexError
  end.

(** A list comprehension whose body can raise. *)
Fixpoint mapM {A B} (f : A -> Exc B) (l : list A) : Exc (list B) :=
  match l with
  | [] => ret []
  | a :: t => b <- f a ;; bs <- mapM f t ;; ret (b :: bs)
  end.

(** [zip] of three sequences stops at the shortest one. *)
Fixpoint zip3 {A B C} (a : list A) (b : list B) (c : list C)
  : list (A * B * C) :=
  match a, b, c with
  | x :: a', y :: b', z :: c' => (x, y, z) :: zip3 a' b' c'
  | _, _, _ => []
  end.

Fixpoint enumerate_from {A} (i : nat) (l : list A) : list (nat * A) :=
  match l with
  | [] => []
  | x :: t => (i, x) :: enumerate_from (S i) t
  end.

Definition enumerate {A} (l : list A) : list (nat * A) := enumerate_from 0 l.

(** [sorted(l, key=key)].  Python guarantees that [sorted] is stable; the
    model is the stable insertion sort: an element is placed before the
    first element whose key is not smaller. *)
Fixpoint insert_by {A} (key : A -> Z) (x : A) (l : list A) : list A :=
  match l with
  | [] => [x]
  | y :: t => if key x <=? key y then x :: y :: t else y :: insert_by key x t
  end.

Fixpoint sorted {A} (key : A -> Z) (l : list A) : list A :=
  match l with
  | [] => []
  | x :: t => insert_by key x (sorted key t)
  end.

(** The order a stable sort by [key] produces from an input in which
    [before] holds between any two elements in this order: by key, and by
    [before] among equal keys. *)
Definition key_then_before {A} (key : A -> Z) (before : A -> A -> Prop)
           (a b : A) : Prop :=
  key a < key b \/ (key a = key b /\ before a b).

(** ** Calls to collaborators

    [recoginze] talks to a detector, an encoder and the similarity engine.
    A run threads the log of the calls made so far, next to the error
    monad. *)

Inductive call : Type :=
| call_find_faces
| call_calculate_embeddings
| call_find_closest.

Definition Run (A : Type) : Type := list call -> list call * Exc A.

Definition Run_ret {A} (a : A) : Run A := fun log => (log, ret a).

Definition Run_bind {A B} (m : Run A) (k : A -> Run B) : Run B :=
  fun log =>
    match m log with
    | (log', inl e) => (log', inl e)
    | (log', inr a) => k a log'
    end.

(** Performs the call [c], whose outcome is [r]. *)
Definition invoke {A} (c : call) (r : Exc A) : Run A :=
  fun log => (log ++ [c], r).

Definition lift {A} (r : Exc A) : Run A := fun log => (log, r).

Notation "x <~ m ;; k" := (Run_bind m (fun x => k))
  (at level 61, m at next level, right associativity).

(** ** [FaceMatcher] *)

Section FaceMatcher.

(** Input images and face crops are opaque to the matcher. *)
Variables Image FaceImage : Type.

(** The dtype of the embeddings of the run. *)
Context {dt : np.dtype}.

(** A bounding box; [coordinates[0]] is its left edge. *)
Definition Box : Type := (Z * Z * Z * Z)%type.

Definition box_getitem0 (b : Box) : Z :=
  let '(x0, _, _, _) := b in x0.

Record DetectedFace : Type := mk_face {
  image : FaceImage;
  box : Box
}.

Record Reference : Type := mk_reference {
  names : list string;
  embeddings : np.ndarray
}.

(** [facematch.face_detection] and [facematch.face_encoding] are not part
    of the sources: the detector and the encoder are the two methods the
    matcher calls on them. *)
Record FaceMatcher : Type := mk_matcher {
  reference : Reference;
  find_faces : Image -> list DetectedFace;
  calculate_embeddings : list FaceImage -> np.ndarray
}.

(** One entry of the result: the dict with keys ['id'], ['coordinates'],
    ['best_match'] and ['distance']. *)
Record Dict : Type := mk_dict {
  id : nat;
  coordinates : Box;
  best_match : string;
  distance : Z
}.

Definition unknown : string := "unknown"%string.

(** The body of the list comprehension of [recoginze]. *)
Definition entry (threshold : Z) (x : nat * (Box * string * Z)) : Dict :=
  let '(i, (bx, name, d)) := x in
  {| id := i;
     coordinates := bx;
     best_match := if threshold <? d then name else unknown;
     distance := if threshold <? d then d else -1 |}.

Definition recoginze (self : FaceMatcher) (img : Image) (threshold : Z)
  : Run (list Dict) :=
  detected <~ invoke call_find_faces (ret (find_faces self img)) ;;
  match detected with
  | [] => Run_ret []
  | _ :: _ =>
      let face_images := map (fun face => face.(image)) detected in
      embeddings' <~ invoke call_calculate_embeddings
                       (ret (calculate_embeddings self face_images)) ;;
      r <~ invoke call_find_closest
             (find_closest embeddings' (reference self).(embeddings)) ;;
      let '(best_matches, distances) := r in
      names' <~ lift (mapM (getitem (reference self).(names)) best_matches) ;;
      let boxes := map (fun face => face.(box)) detected in
      let result :=
        map (entry threshold) (enumerate (zip3 boxes names' distances)) in
      let result := sorted (fun x => box_getitem0 x.(coordinates)) result in
      Run_ret result
  end.

End FaceMatcher.

Arguments mk_face {FaceImage}.
Arguments image {FaceImage}.
Arguments box {FaceImage}.
Arguments mk_matcher {Image FaceImage}.
Arguments reference {Image FaceImage}.
Arguments find_faces {Image FaceImage}.
Arguments calculate_embeddings {Image FaceImage}.
Arguments recoginze {Image FaceImage dt}.

(** Names for three sub-expressions of [recoginze]. *)

(** The embeddings the encoder returns for the faces found in [img]. *)
Definition encoded {Image FaceImage} (self : FaceMatcher Image FaceImage)
           (img : Image) : np.ndarray :=
  calculate_embeddings self (map image (find_faces self img)).

(** The list comprehension, before sorting. *)
Definition comprehension (threshold : Z) (boxes : list Box)
           (ns : list string) (ds : list Z) : list Dict :=
  map (entry threshold) (enumerate (zip3 boxes ns ds)).

(** The sort key [x['coordinates'][0]]. *)
Definition left_edge (x : Dict) : Z := box_getitem0 (coordinates x).

(** Two entries that agree on every field but the label. *)
Definition agree_but_label (a b : Dict) : Prop :=
  id a = id b /\ coordinates a = coordinates b /\ distance a = distance b.

(** What raising the threshold can do to an entry: identifier and box stay;
    label and score stay, or both turn into the sentinels. *)
Definition raised (a b : Dict) : Prop :=
  id a = id b /\ coordinates a = coordinates b
  /\ (best_match a = unknown -> best_match b = unknown)
  /\ ((best_match b = best_match a /\ distance b = distance a)
      \/ (best_match b = unknown /\ distance b = -1)).

(** The reading of monotonicity under which two thresholds change labels
    only: every "unknown" at [t1] is "unknown" at [t2], and all other
    fields agree. *)
Definition threshold_only_changes_label {Image FaceImage} {dt : np.dtype}
           (self : FaceMatcher Image FaceImage) (img : Image) (t1 t2 : Z)
  : Prop :=
  forall log log1 log2 r1 r2,
    recoginze self img t1 log = (log1, inr r1) ->
    recoginze self img t2 log = (log2, inr r2) ->
    Forall2 (fun a b => (best_match a = unknown -> best_match b = unknown)
                        /\ agree_but_label a b) r1 r2.

(** ** A concrete scene

    Three faces detected at left edges 50, 10 and 30; two references. *)
Module Scene.

Definition references : np.ndarray := np.mk_ndarray 2 [[1; 0]; [0; 1]].

Definition candidates : np.ndarray :=
  np.mk_ndarray 2 [[1; 0]; [0; 1]; [1; 0]].

Definition reference : Reference :=
  mk_reference ["alice"%string; "bob"%string] references.

Definition faces : list (DetectedFace nat) :=
  [mk_face 0%nat (50, 20, 90, 60);
   mk_face 1%nat (10, 20, 40, 60);
   mk_face 2%nat (30, 20, 45, 60)].

Definition matcher : FaceMatcher unit nat :=
  mk_matcher reference (fun _ => faces) (fun _ => candidates).

(** The same matcher in front of an image without faces. *)
Definition blind : FaceMatcher unit nat :=
  mk_matcher reference (fun _ => []) (fun _ => candidates).

(** The calls of a run that reaches the engine. *)
Definition calls : list call :=
  [call_find_faces; call_calculate_embeddings; call_find_closest].

(** What [matcher] returns at threshold 0 ... *)
Definition lineup : list Dict :=
  [mk_dict 1 (10, 20, 40, 60) "bob" 1;
   mk_dict 2 (30, 20, 45, 60) "alice" 1;
   mk_dict 0 (50, 20, 90, 60) "alice" 1].

(** ... and at threshold 1, which no score exceeds. *)
Definition strangers : list Dict :=
  [mk_dict 1 (10, 20, 40, 60) "unknown" (-1);
   mk_dict 2 (30, 20, 45, 60) "unknown" (-1);
   mk_dict 0 (50, 20, 90, 60) "unknown" (-1)].

End Scene.

(** ** Arrays and matchers for the edge cases *)

(** The calls of a run that gets past the detector. *)
Definition engine_calls : list call :=
  [call_find_faces; call_calculate_embeddings; call_find_closest].

Module Faults.

(** An encoder that returns two embeddings for the three faces. *)
Definition short_encoder : FaceMatcher unit nat :=
  mk_matcher Scene.reference (fun _ => Scene.faces)
             (fun _ => np.mk_ndarray 2 [[1; 0]; [0; 1]]).

(** A reference set with two embeddings and one name. *)
Definition one_name : FaceMatcher unit nat :=
  mk_matcher (mk_reference ["alice"%string] Scene.references)
             (fun _ => Scene.faces) (fun _ => Scene.candidates).

(** A reference set without any embedding. *)
Definition no_reference : FaceMatcher unit nat :=
  mk_matcher (mk_reference [] (np.mk_ndarray 2 []))
             (fun _ => Scene.faces) (fun _ => Scene.candidates).

(** A third reference, closer to the second candidate than the others. *)
Definition newcomer : list (list Z) := [[0; 2]].

(** What [short_encoder] returns at threshold 0: the third face is gone. *)
Definition short_lineup : list Dict :=
  [mk_dict 1 (10, 20, 40, 60) "bob" 1;
   mk_dict 0 (50, 20, 90, 60) "alice" 1].

End Faults.

(** ** Inputs on which the dtype shows *)
Module Dtypes.

(** One candidate and two references whose first product leaves int64. *)
Definition wide : np.ndarray := np.mk_ndarray 1 [[2 ^ 32]].
Definition wide_references : np.ndarray := np.mk_ndarray 1 [[2 ^ 32]; [1]].

(** One candidate and two references whose products float64 rounds to the
    same number. *)
Definition triple : np.ndarray := np.mk_ndarray 1 [[3]].
Definition close_references : np.ndarray :=
  np.mk_ndarray 1 [[6755399441055746]; [6755399441055747]].

End Dtypes.

(** * Properties *)

(** ** The error monad *)

Lemma bind_inr {A B} (m : Exc A) (k : A -> Exc B) (b : B) :
  bind m k = inr b -> exists a, m = inr a /\ k a = inr b.
Proof.
  destruct m as [e | a]; simpl; intros H.
  - discriminate.
  - exists a. split; [reflexivity | exact H].
Qed.

(** ** Row reductions *)

Lemma fold_max_ge (l : list Z) (b : Z) : b <= fold_left Z.max l b.
Proof.
  revert b. induction l as [| x t IH]; intros b; simpl.
  - lia.
  - specialize (IH (Z.max b x)). lia.
Qed.

(** The scan either keeps the incoming maximum, which then dominates the
    rest of the row, or moves to the first later entry that attains the
    overall maximum. *)
Lemma argmax_from_spec (l : list Z) :
  forall best_i best i,
    let j := np.argmax_from best_i best i l in
    let m := fold_left Z.max l best in
    (j = best_i /\ m = best /\ Forall (fun x => x <= best) l)
    \/ (exists k, j = (i + k)%nat /\ nth_error l k = Some m /\ best < m
                  /\ (forall k' x, (k' < k)%nat -> nth_error l k' = Some x -> x < m)
                  /\ Forall (fun x => x <= m) l).
Proof.
  induction l as [| x t IH]; intros best_i best i; simpl.
  - left. repeat split. constructor.
  - destruct (Z.ltb_spec best x) as [Hlt | Hge].
    + replace (Z.max best x) with x by lia.
      right.
      destruct (IH i x (S i))
        as [(Hj & Hm & Hall) | (k & Hj & Hk & Hb & Hpre & Hall)].
      * exists 0%nat. rewrite Hj, Hm. simpl.
        split; [lia | split; [reflexivity | split; [exact Hlt | split]]].
        -- intros k' y Hk'. lia.
        -- constructor; [lia | exact Hall].
      * exists (S k). rewrite Hj. simpl.
        split; [lia | split; [exact Hk | split; [lia | split]]].
        -- intros [| k'] y Hk' Hy; simpl in Hy.
           ++ injection Hy as <-. exact Hb.
           ++ apply (Hpre k'); [lia | exact Hy].
        -- constructor; [lia | exact Hall].
    + replace (Z.max best x) with best by lia.
      destruct (IH best_i best (S i))
        as [(Hj & Hm & Hall) | (k & Hj & Hk & Hb & Hpre & Hall)].
      * left. split; [exact Hj | split; [exact Hm |]].
        constructor; [lia | exact Hall].
      * right. exists (S k). rewrite Hj. simpl.
        split; [lia | split; [exact Hk | split; [exact Hb | split]]].
        -- intros [| k'] y Hk' Hy; simpl in Hy.
           ++ injection Hy as <-. lia.
           ++ apply (Hpre k'); [lia | exact Hy].
        -- constructor; [lia | exact Hall].
Qed.

(** On a non-empty row, [argmax_row] is the first position of [max_row],
    and [max_row] is the greatest entry. *)
Lemma argmax_row_spec (r : list Z) :
  r <> [] ->
  nth_error r (np.argmax_row r) = Some (np.max_row r)
  /\ (forall k x, nth_error r k = Some x -> x <= np.max_row r)
  /\ (forall k x, (k < np.argmax_row r)%nat -> nth_error r k = Some x ->
                  x < np.max_row r).
Proof.
  destruct r as [| x t]; [congruence | intros _].
  unfold np.argmax_row, np.max_row.
  pose proof (fold_max_ge t x) as Hge.
  destruct (argmax_from_spec t 0%nat x 1%nat)
    as [(Hj & Hm & Hall) | (k & Hj & Hk & Hb & Hpre & Hall)].
  - rewrite Hj, Hm. simpl. split; [reflexivity | split].
    + intros [| k] y Hy; simpl in Hy.
      * injection Hy as <-. lia.
      * rewrite Forall_forall in Hall. apply Hall.
        eapply nth_error_In; eassumption.
    + intros k y Hk. lia.
  - rewrite Hj. simpl. split; [exact Hk | split].
    + intros [| k0] y Hy; simpl in Hy.
      * injection Hy as <-. lia.
      * rewrite Forall_forall in Hall. apply Hall.
        eapply nth_error_In; eassumption.
    + intros [| k0] y Hk0 Hy; simpl in Hy.
      * injection Hy as <-. exact Hb.
      * apply (Hpre k0); [lia | exact Hy].
Qed.

Lemma argmax_row_lt (r : list Z) :
  r <> [] -> (np.argmax_row r < length r)%nat.
Proof.
  intros Hr. destruct (argmax_row_spec r Hr) as (H & _).
  apply nth_error_Some. congruence.
Qed.

(** ** Transposition and the matrix product *)

Lemma map_nth_seq {A} (l : list A) (d : A) :
  map (fun k => nth k l d) (seq 0 (length l)) = l.
Proof.
  induction l as [| a t IH]; simpl.
  - reflexivity.
  - f_equal. rewrite <- seq_shift, map_map. exact IH.
Qed.

Lemma nrows_T (a : np.ndarray) : np.nrows (np.T a) = np.ncols a.
Proof.
  unfold np.nrows, np.T. simpl. rewrite length_map, length_seq. reflexivity.
Qed.

(** Column [j] of [a.T] is row [j] of [a]. *)
Lemma column_T (a : np.ndarray) (j : nat) (v : list Z) :
  np.rectangular a = true ->
  nth_error (np.rows a) j = Some v ->
  np.column (np.T a) j = v.
Proof.
  intros Hrect Hj.
  assert (Hlen : length v = np.ncols a).
  { unfold np.rectangular in Hrect. rewrite forallb_forall in Hrect.
    apply Nat.eqb_eq, Hrect. eapply nth_error_In; eassumption. }
  unfold np.column at 1, np.T. simpl. rewrite map_map.
  rewrite <- Hlen. rewrite <- (map_nth_seq v 0) at 2.
  apply map_ext. intros k. unfold np.column.
  apply nth_error_nth. rewrite nth_error_map, Hj. reflexivity.
Qed.

(** The rows of [np.dot(e, r.T)] hold the inner products of the rows of
    [e] with the rows of [r]. *)
Lemma similarity_rows {dt : np.dtype} (r : np.ndarray) (u : list Z) :
  np.rectangular r = true ->
  map (fun j => np.inner u (np.column (np.T r) j)) (seq 0 (np.nrows r))
  = map (np.inner u) (np.rows r).
Proof.
  intros Hrect.
  transitivity (map (np.inner u)
                    (map (fun k => nth k (np.rows r) []) (seq 0 (np.nrows r)))).
  2: { unfold np.nrows. rewrite map_nth_seq. reflexivity. }
  rewrite map_map. apply map_ext_in. intros j Hj.
  apply in_seq in Hj. f_equal.
  destruct (nth_error (np.rows r) j) as [v |] eqn:Hv.
  - rewrite (nth_error_nth _ _ _ Hv). apply column_T; assumption.
  - apply nth_error_None in Hv. unfold np.nrows in Hj. lia.
Qed.

(** What a successful call computed. *)
Lemma find_closest_inv {dt : np.dtype} (e r : np.ndarray) (bm : list nat) (ds : list Z) :
  find_closest e r = inr (bm, ds) ->
  let sims := fun u => map (fun j => np.inner u (np.column (np.T r) j))
                           (seq 0 (np.nrows r)) in
  np.ncols e = np.ncols r
  /\ np.rows r <> []
  /\ bm = map (fun u => np.argmax_row (sims u)) (np.rows e)
  /\ ds = map (fun u => np.max_row (sims u)) (np.rows e).
Proof.
  unfold find_closest, np.dot, np.argmax_axis1, np.max_axis1.
  rewrite nrows_T.
  destruct (Nat.eqb_spec (np.ncols e) (np.ncols r)) as [Hd | Hd];
    simpl; [| discriminate].
  destruct (Nat.eqb_spec (np.nrows r) 0) as [Hm | Hm];
    simpl; [discriminate |].
  intros H. injection H as <- <-.
  rewrite !map_map.
  repeat split; try assumption.
  intros Hr. apply Hm. unfold np.nrows. rewrite Hr. reflexivity.
Qed.

(** With aligned shapes and at least one reference the call succeeds. *)
Lemma find_closest_eq {dt : np.dtype} (e r : np.ndarray) :
  np.ncols e = np.ncols r ->
  np.rectangular r = true ->
  np.rows r <> [] ->
  find_closest e r
  = inr (map (fun u => np.argmax_row (map (np.inner u) (np.rows r))) (np.rows e),
         map (fun u => np.max_row (map (np.inner u) (np.rows r))) (np.rows e)).
Proof.
  intros Hd Hrect Hr.
  unfold find_closest, np.dot, np.argmax_axis1, np.max_axis1.
  rewrite nrows_T.
  destruct (Nat.eqb_spec (np.ncols e) (np.ncols r)) as [_ | Hn];
    [simpl | contradiction].
  destruct (Nat.eqb_spec (np.nrows r) 0) as [Hm | _]; simpl.
  - exfalso. apply Hr. apply length_zero_iff_nil. exact Hm.
  - rewrite !map_map. unfold ret. f_equal. f_equal.
    + apply map_ext. intros u. rewrite similarity_rows by assumption. reflexivity.
    + apply map_ext. intros u. rewrite similarity_rows by assumption. reflexivity.
Qed.

(** Row [i] of the result of a successful call on well-shaped arrays:
    the index is in range, is the first one to attain the score, and the
    score is the greatest similarity of the row. *)
Lemma find_closest_row {dt : np.dtype} (e r : np.ndarray) (bm : list nat) (ds : list Z)
      (i : nat) (u : list Z) :
  np.rectangular r = true ->
  find_closest e r = inr (bm, ds) ->
  nth_error (np.rows e) i = Some u ->
  exists j s v,
    nth_error bm i = Some j /\ nth_error ds i = Some s
    /\ nth_error (np.rows r) j = Some v /\ np.inner u v = s
    /\ (forall j' v', nth_error (np.rows r) j' = Some v' -> np.inner u v' <= s)
    /\ (forall j' v', (j' < j)%nat -> nth_error (np.rows r) j' = Some v' ->
                      np.inner u v' < s).
Proof.
  intros Hrect Hfc Hu.
  destruct (find_closest_inv _ _ _ _ Hfc) as (Hd & Hr & _).
  rewrite (find_closest_eq e r Hd Hrect Hr) in Hfc.
  injection Hfc as <- <-.
  assert (Hrow : map (np.inner u) (np.rows r) <> []).
  { destruct (np.rows r); [congruence | simpl; discriminate]. }
  destruct (argmax_row_spec _ Hrow) as (Hat & Hmax & Hfirst).
  remember (np.argmax_row (map (np.inner u) (np.rows r))) as j eqn:Ej.
  remember (np.max_row (map (np.inner u) (np.rows r))) as s eqn:Es.
  rewrite nth_error_map in Hat.
  destruct (nth_error (np.rows r) j) as [v |] eqn:Hv;
    simpl in Hat; [| discriminate].
  injection Hat as Hat.
  exists j, s, v.
  rewrite !nth_error_map, Hu. simpl. rewrite <- Ej, <- Es.
  repeat split; try assumption.
  - intros j' v' Hj'. apply (Hmax j').
    rewrite nth_error_map, Hj'. reflexivity.
  - intros j' v' Hlt Hj'. apply (Hfirst j'); [exact Hlt |].
    rewrite nth_error_map, Hj'. reflexivity.
Qed.

(** ** Builtins *)

Lemma mapM_inr {A B} (f : A -> Exc B) (l : list A) (bs : list B) :
  mapM f l = inr bs -> Forall2 (fun a b => f a = inr b) l bs.
Proof.
  revert bs. induction l as [| a t IH]; simpl; intros bs H.
  - injection H as <-. constructor.
  - apply bind_inr in H. destruct H as (b & Hb & H).
    apply bind_inr in H. destruct H as (bs' & Hbs & H).
    injection H as <-. constructor; [exact Hb | apply IH; exact Hbs].
Qed.

Lemma mapM_total {A B} (f : A -> Exc B) (l : list A) :
  Forall (fun a => exists b, f a = inr b) l -> exists bs, mapM f l = inr bs.
Proof.
  induction 1 as [| a t (b & Hb) _ (bs & Hbs)]; simpl.
  - exists []. reflexivity.
  - exists (b :: bs). rewrite Hb. simpl. rewrite Hbs. reflexivity.
Qed.

Lemma getitem_inr {A} (l : list A) (i : nat) (a : A) :
  getitem l i = inr a <-> nth_error l i = Some a.
Proof.
  unfold getitem. destruct (nth_error l i); simpl; split; intros H;
    try discriminate; injection H as <-; reflexivity.
Qed.

Lemma nth_error_zip3 {A B C} (a : list A) (b : list B) (c : list C) (i : nat) :
  nth_error (zip3 a b c) i
  = match nth_error a i, nth_error b i, nth_error c i with
    | Some x, Some y, Some z => Some (x, y, z)
    | _, _, _ => None
    end.
Proof.
  revert b c i. induction a as [| x a' IH]; intros b c i.
  - destruct i; reflexivity.
  - destruct b as [| y b'].
    + destruct i; simpl; [| destruct (nth_error a' i)]; reflexivity.
    + destruct c as [| z c'].
      * destruct i; simpl; [reflexivity |].
        destruct (nth_error a' i); [| reflexivity].
        destruct (nth_error b' i); reflexivity.
      * destruct i; simpl; [reflexivity | apply IH].
Qed.

Lemma length_zip3 {A B C} (a : list A) (b : list B) (c : list C) :
  length (zip3 a b c) = Nat.min (length a) (Nat.min (length b) (length c)).
Proof.
  revert b c. induction a as [| x a' IH]; intros b c.
  - reflexivity.
  - destruct b as [| y b']; [reflexivity |].
    destruct c as [| z c']; simpl; [reflexivity |].
    rewrite IH. reflexivity.
Qed.

Lemma nth_error_enumerate_from {A} (l : list A) (k i : nat) :
  nth_error (enumerate_from k l) i
  = option_map (fun x => ((k + i)%nat, x)) (nth_error l i).
Proof.
  revert k i. induction l as [| x t IH]; intros k i.
  - destruct i; reflexivity.
  - destruct i; simpl.
    + rewrite Nat.add_0_r. reflexivity.
    + rewrite IH. rewrite Nat.add_succ_r. reflexivity.
Qed.

Lemma length_enumerate_from {A} (l : list A) (k : nat) :
  length (enumerate_from k l) = length l.
Proof.
  revert k. induction l as [| x t IH]; intros k; simpl;
    [| rewrite IH]; reflexivity.
Qed.

Lemma map_fst_enumerate_from {A} (l : list A) (k : nat) :
  map fst (enumerate_from k l) = seq k (length l).
Proof.
  revert k. induction l as [| x t IH]; intros k; simpl;
    [| rewrite IH]; reflexivity.
Qed.

(** ** [sorted] *)

Section Sorted.

Context {A : Type} (key : A -> Z).

Lemma insert_by_perm (x : A) (l : list A) :
  Permutation (insert_by key x l) (x :: l).
Proof.
  induction l as [| y t IH]; simpl.
  - apply Permutation_refl.
  - destruct (key x <=? key y).
    + apply Permutation_refl.
    + eapply perm_trans; [apply perm_skip, IH | apply perm_swap].
Qed.

Lemma sorted_perm (l : list A) : Permutation (sorted key l) l.
Proof.
  induction l as [| x t IH]; simpl.
  - constructor.
  - eapply perm_trans; [apply insert_by_perm | apply perm_skip, IH].
Qed.

(** [before] relates any two elements that stand in this order in the
    input; in the output it still holds between elements of equal key. *)
Variable before : A -> A -> Prop.

Lemma insert_by_sorted (x : A) (l : list A) :
  StronglySorted (key_then_before key before) l ->
  Forall (before x) l ->
  StronglySorted (key_then_before key before) (insert_by key x l).
Proof.
  induction l as [| y t IH]; simpl; intros Hs Hx.
  - repeat constructor.
  - apply StronglySorted_inv in Hs. destruct Hs as (Hst & Hy).
    apply Forall_cons_iff in Hx. destruct Hx as (Hxy & Hxt).
    destruct (Z.leb_spec (key x) (key y)) as [Hle | Hgt].
    + constructor; [constructor; assumption |].
      assert (Hcase : forall z, key x <= key z -> before x z ->
                                key_then_before key before x z).
      { intros z Hz Hb. destruct (Z.eq_dec (key x) (key z)).
        - right. split; assumption.
        - left. lia. }
      constructor.
      * apply Hcase; assumption.
      * rewrite Forall_forall in *. intros z Hz.
        apply Hcase; [| apply Hxt, Hz].
        destruct (Hy z Hz) as [Hlt | (Heq & _)]; lia.
    + constructor; [apply IH; assumption |].
      rewrite Forall_forall in *. intros z Hz.
      apply (Permutation_in _ (insert_by_perm x t)) in Hz.
      destruct Hz as [<- | Hz].
      * left. lia.
      * apply Hy, Hz.
Qed.

(** Stability: the output is ordered by key, and by input order among
    equal keys. *)
Lemma sorted_stable (l : list A) :
  StronglySorted before l ->
  StronglySorted (key_then_before key before) (sorted key l).
Proof.
  induction l as [| x t IH]; simpl; intros Hs.
  - constructor.
  - apply StronglySorted_inv in Hs. destruct Hs as (Hst & Hx).
    apply insert_by_sorted; [apply IH, Hst |].
    rewrite Forall_forall in *. intros z Hz. apply Hx.
    apply (Permutation_in _ (sorted_perm t)), Hz.
Qed.

End Sorted.

Lemma sorted_ext {A} (key key' : A -> Z) (l : list A) :
  (forall x, key x = key' x) -> sorted key l = sorted key' l.
Proof.
  intros Hk. induction l as [| x t IH]; simpl; [reflexivity |].
  rewrite IH. generalize (sorted key' t). intros s.
  induction s as [| y s IHs]; simpl; [reflexivity |].
  rewrite !Hk, IHs. reflexivity.
Qed.

Lemma sorted_map {A B} (key : B -> Z) (f : A -> B) (l : list A) :
  sorted key (map f l) = map f (sorted (fun x => key (f x)) l).
Proof.
  induction l as [| x t IH]; simpl; [reflexivity |].
  rewrite IH. generalize (sorted (fun x => key (f x)) t). intros s.
  induction s as [| y s IHs]; simpl; [reflexivity |].
  destruct (key (f x) <=? key (f y)); simpl; [reflexivity |].
  rewrite IHs. reflexivity.
Qed.

Lemma StronglySorted_nth_error {A} (R : A -> A -> Prop) (l : list A) :
  StronglySorted R l ->
  forall p q a b, (p < q)%nat ->
    nth_error l p = Some a -> nth_error l q = Some b -> R a b.
Proof.
  induction 1 as [| x t Hs IH Hx]; intros p q a b Hpq Ha Hb.
  - destruct p; discriminate.
  - destruct q as [| q]; [lia |]. simpl in Hb.
    destruct p as [| p]; simpl in Ha.
    + injection Ha as <-. rewrite Forall_forall in Hx.
      apply Hx. eapply nth_error_In; eassumption.
    + apply (IH p q); [lia | assumption | assumption].
Qed.

(** ** [recoginze] *)

Section Recoginze.

Context {Image FaceImage : Type} {dt : np.dtype}.
Implicit Types (self : FaceMatcher Image FaceImage) (img : Image).
Implicit Types (t threshold : Z) (log : list call).

(** One equation for the whole run: the value and the log. *)
Lemma recoginze_run self img t log :
  recoginze self img t log
  = match find_faces self img with
    | [] => (log ++ [call_find_faces], inr [])
    | _ :: _ =>
        let log' := (log ++ [call_find_faces]) ++ [call_calculate_embeddings] in
        match find_closest (encoded self img) (embeddings (reference self)) with
        | inl e => (log' ++ [call_find_closest], inl e)
        | inr (bm, ds) =>
            match mapM (getitem (names (reference self))) bm with
            | inl e => (log' ++ [call_find_closest], inl e)
            | inr ns =>
                (log' ++ [call_find_closest],
                 inr (sorted left_edge
                        (comprehension t (map box (find_faces self img)) ns ds)))
            end
        end
    end.
Proof.
  unfold recoginze, Run_bind, invoke, lift, Run_ret, encoded. simpl.
  destruct (find_faces self img) as [| f fs]; [reflexivity |].
  simpl.
  destruct (find_closest _ _) as [e | (bm, ds)]; [reflexivity |].
  destruct (mapM _ bm) as [e | ns]; reflexivity.
Qed.

(** What a successful run on at least one face went through. *)
Lemma recoginze_inv self img t log log' result :
  recoginze self img t log = (log', inr result) ->
  find_faces self img <> [] ->
  exists bm ds ns,
    find_closest (encoded self img) (embeddings (reference self)) = inr (bm, ds)
    /\ Forall2 (fun j n => nth_error (names (reference self)) j = Some n) bm ns
    /\ result = sorted left_edge
                  (comprehension t (map box (find_faces self img)) ns ds).
Proof.
  rewrite recoginze_run. intros H Hne.
  destruct (find_faces self img) as [| f fs] eqn:Hf; [congruence |].
  cbv zeta in H.
  destruct (find_closest _ _) as [e | (bm, ds)]; [discriminate |].
  destruct (mapM _ bm) as [e | ns] eqn:Hns; [discriminate |].
  injection H as _ <-.
  exists bm, ds, ns. split; [reflexivity | split; [| reflexivity]].
  apply mapM_inr in Hns.
  eapply Forall2_impl; [| exact Hns].
  intros j n Hj. apply getitem_inr. exact Hj.
Qed.

Lemma nth_error_comprehension t boxes ns ds (i : nat) :
  nth_error (comprehension t boxes ns ds) i
  = match nth_error boxes i, nth_error ns i, nth_error ds i with
    | Some b, Some n, Some s => Some (entry t (i, (b, n, s)))
    | _, _, _ => None
    end.
Proof.
  unfold comprehension, enumerate.
  rewrite nth_error_map, nth_error_enumerate_from, nth_error_zip3.
  destruct (nth_error boxes i); [| reflexivity].
  destruct (nth_error ns i); [| reflexivity].
  destruct (nth_error ds i); reflexivity.
Qed.

Lemma id_entry t (x : nat * (Box * string * Z)) : id (entry t x) = fst x.
Proof. destruct x as (i & (b & n) & s). reflexivity. Qed.

Lemma coordinates_entry t (x : nat * (Box * string * Z)) :
  coordinates (entry t x) = fst (fst (snd x)).
Proof. destruct x as (i & (b & n) & s). reflexivity. Qed.

Lemma length_comprehension t boxes ns ds :
  length (comprehension t boxes ns ds)
  = Nat.min (length boxes) (Nat.min (length ns) (length ds)).
Proof.
  unfold comprehension, enumerate.
  rewrite length_map, length_enumerate_from, length_zip3. reflexivity.
Qed.

Lemma map_id_comprehension t boxes ns ds :
  map id (comprehension t boxes ns ds)
  = seq 0 (length (comprehension t boxes ns ds)).
Proof.
  unfold comprehension, enumerate.
  rewrite length_map, length_enumerate_from, map_map.
  rewrite <- map_fst_enumerate_from.
  apply map_ext. intros x. apply id_entry.
Qed.

(** Before sorting, identifiers grow along the list. *)
Lemma comprehension_ids_increase t boxes ns ds :
  StronglySorted (fun a b => (id a < id b)%nat) (comprehension t boxes ns ds).
Proof.
  assert (H : forall l : list Dict, forall k n,
             map id l = seq k n ->
             StronglySorted (fun a b => (id a < id b)%nat) l).
  { induction l as [| a l IH]; intros k n Hl.
    - constructor.
    - destruct n as [| n]; [discriminate |]. simpl in Hl.
      injection Hl as Ha Hl.
      constructor; [apply (IH (S k) n), Hl |].
      rewrite Forall_forall. intros b Hb.
      apply (in_map id) in Hb. rewrite Hl in Hb. apply in_seq in Hb. lia. }
  eapply H. apply map_id_comprehension.
Qed.

End Recoginze.

Lemma Forall2_nth_error_r {A B} (R : A -> B -> Prop) (l : list A) (l' : list B) :
  Forall2 R l l' ->
  forall i b, nth_error l' i = Some b -> exists a, nth_error l i = Some a /\ R a b.
Proof.
  induction 1 as [| a b l l' Hab _ IH]; intros i y Hy.
  - destruct i; discriminate.
  - destruct i as [| i]; simpl in *.
    + injection Hy as <-. exists a. split; [reflexivity | exact Hab].
    + apply IH, Hy.
Qed.

(** Every entry of the comprehension, read through its identifier. *)
Lemma In_comprehension t boxes ns ds (d : Dict) :
  In d (comprehension t boxes ns ds) ->
  exists n s,
    nth_error boxes (id d) = Some (coordinates d)
    /\ nth_error ns (id d) = Some n
    /\ nth_error ds (id d) = Some s
    /\ best_match d = (if t <? s then n else unknown)
    /\ distance d = (if t <? s then s else -1).
Proof.
  intros Hd. apply In_nth_error in Hd. destruct Hd as (i & Hi).
  rewrite nth_error_comprehension in Hi.
  destruct (nth_error boxes i) as [b |] eqn:Hb; [| discriminate].
  destruct (nth_error ns i) as [n |] eqn:Hn; [| discriminate].
  destruct (nth_error ds i) as [s |] eqn:Hs; [| discriminate].
  injection Hi as <-. simpl. exists n, s. repeat split; assumption.
Qed.

Lemma comprehension_has t boxes ns ds (i : nat) :
  (i < length boxes)%nat -> (i < length ns)%nat -> (i < length ds)%nat ->
  exists d, In d (comprehension t boxes ns ds) /\ id d = i.
Proof.
  intros Hb Hn Hs.
  apply nth_error_Some in Hb, Hn, Hs.
  destruct (nth_error boxes i) as [b |] eqn:Eb; [| congruence].
  destruct (nth_error ns i) as [n |] eqn:En; [| congruence].
  destruct (nth_error ds i) as [s |] eqn:Es; [| congruence].
  exists (entry t (i, (b, n, s))). split; [| reflexivity].
  apply (nth_error_In _ i). rewrite nth_error_comprehension, Eb, En, Es.
  reflexivity.
Qed.

Section Runs.

Context {Image FaceImage : Type} {dt : np.dtype}.
Implicit Types (self : FaceMatcher Image FaceImage) (img : Image).
Implicit Types (t : Z) (log : list call).

Lemma recoginze_nil self img t log log' result :
  find_faces self img = [] ->
  recoginze self img t log = (log', inr result) ->
  result = [].
Proof.
  intros Hf. rewrite recoginze_run, Hf. intros H. injection H as _ <-.
  reflexivity.
Qed.

(** The shape of the engine's output on a successful call. *)
Lemma find_closest_lengths (e r : np.ndarray) bm ds :
  find_closest e r = inr (bm, ds) ->
  length bm = np.nrows e /\ length ds = np.nrows e
  /\ Forall (fun j => (j < np.nrows r)%nat) bm.
Proof.
  intros H. destruct (find_closest_inv _ _ _ _ H) as (_ & Hr & -> & ->).
  rewrite !length_map. split; [reflexivity | split; [reflexivity |]].
  rewrite Forall_map, Forall_forall. intros u _.
  set (row := map _ (seq 0 (np.nrows r))).
  assert (Hlen : length row = np.nrows r).
  { unfold row. rewrite length_map, length_seq. reflexivity. }
  rewrite <- Hlen. apply argmax_row_lt.
  intros Hnil. rewrite Hnil in Hlen. simpl in Hlen.
  apply Hr, length_zero_iff_nil. symmetry. exact Hlen.
Qed.

(** A successful run returns the sorted comprehension over lists of the
    engine's length. *)
Lemma recoginze_result self img t log log' result bm ds :
  recoginze self img t log = (log', inr result) ->
  find_faces self img <> [] ->
  find_closest (encoded self img) (embeddings (reference self)) = inr (bm, ds) ->
  exists ns,
    Forall2 (fun j n => nth_error (names (reference self)) j = Some n) bm ns
    /\ result = sorted left_edge
                  (comprehension t (map box (find_faces self img)) ns ds).
Proof.
  intros H Hne Hfc.
  destruct (recoginze_inv _ _ _ _ _ _ H Hne) as (bm' & ds' & ns & Hfc' & Hns & Hr).
  rewrite Hfc in Hfc'. injection Hfc' as <- <-.
  exists ns. split; assumption.
Qed.

End Runs.

(** * The similarity engine *)



(** The dtype decides the match: on the same arrays, exact integers pick
    the first reference (2^64 against 2^32) where int64 picks the second,
    and exact integers pick the second close reference where float64
    picks the first. *)
Example dtype_decides :
  find_closest (dt := np.object_) Dtypes.wide Dtypes.wide_references
  = inr ([0%nat], [2 ^ 64])
  /\ find_closest (dt := np.int64) Dtypes.wide Dtypes.wide_references
     = inr ([1%nat], [2 ^ 32])
  /\ find_closest (dt := np.object_) Dtypes.triple Dtypes.close_references
     = inr ([1%nat], [20266198323167241])
  /\ find_closest (dt := np.float64) Dtypes.triple Dtypes.close_references
     = inr ([0%nat], [20266198323167240]).
Proof. repeat split; reflexivity. Qed.

(** C3. With no reference at all, [find_closest] fails with numpy's
    [ValueError], the error the specification names InvalidInput, whatever
    the candidates are; it returns no result. *)
Theorem find_closest_no_reference {dt : np.dtype} (e : np.ndarray) (D : nat) :
  find_closest e (np.mk_ndarray D []) = inl ValueError.
Proof.
  unfold find_closest, np.dot, np.argmax_axis1. rewrite nrows_T. simpl.
  destruct (Nat.eqb (np.ncols e) D); reflexivity.
Qed.

(** C5. When several references attain the maximum of a row,
    [find_closest] returns the lowest of their indexes: the returned index
    attains the maximum, and every index that attains it is at least as
    large.  The similarities compared are the inner products [np.dot]
    computes in the arrays' dtype. *)
Theorem find_closest_first_maximum {dt : np.dtype} (e r : np.ndarray) :
  np.ncols e = np.ncols r ->
  np.rectangular r = true ->
  np.rows r <> [] ->
  exists bm ds,
    find_closest e r = inr (bm, ds)
    /\ forall i u, nth_error (np.rows e) i = Some u ->
         exists j v,
           nth_error bm i = Some j
           /\ nth_error (np.rows r) j = Some v
           /\ (forall k w, nth_error (np.rows r) k = Some w ->
                           np.inner u w <= np.inner u v)
           /\ forall j' v',
                nth_error (np.rows r) j' = Some v' ->
                (forall k w, nth_error (np.rows r) k = Some w ->
                             np.inner u w <= np.inner u v') ->
                (j <= j')%nat.
Proof.
  intros Hd Hrect Hr.
  pose proof (find_closest_eq e r Hd Hrect Hr) as Hfc.
  eexists. eexists. split; [exact Hfc |].
  intros i u Hu.
  destruct (find_closest_row e r _ _ i u Hrect Hfc Hu)
    as (j & s & v & Hj & Hs & Hv & Hin & Hmax & Hfirst).
  exists j, v. subst s. repeat split; try assumption.
  intros j' v' Hj' Htop.
  destruct (Nat.le_gt_cases j j') as [Hle | Hlt]; [exact Hle | exfalso].
  specialize (Hfirst j' v' Hlt Hj'). specialize (Htop j v Hv). lia.
Qed.

(** In float64 both products round to the same number, and the first
    reference is returned. *)
Lemma find_closest_first_maximum_witness :
  find_closest (dt := np.float64) Dtypes.triple Dtypes.close_references
  = inr ([0%nat], [20266198323167240])
  /\ exists bm ds,
       find_closest (dt := np.float64) Dtypes.triple Dtypes.close_references
       = inr (bm, ds)
       /\ forall i u, nth_error (np.rows Dtypes.triple) i = Some u ->
            exists j v,
              nth_error bm i = Some j
              /\ nth_error (np.rows Dtypes.close_references) j = Some v
              /\ (forall k w,
                    nth_error (np.rows Dtypes.close_references) k = Some w ->
                    np.inner (dtype := np.float64) u w
                    <= np.inner (dtype := np.float64) u v)
              /\ forall j' v',
                   nth_error (np.rows Dtypes.close_references) j' = Some v' ->
                   (forall k w,
                       nth_error (np.rows Dtypes.close_references) k = Some w ->
                       np.inner (dtype := np.float64) u w
                       <= np.inner (dtype := np.float64) u v') ->
                   (j <= j')%nat.
Proof.
  split; [reflexivity |].
  apply (find_closest_first_maximum (dt := np.float64)
                                    Dtypes.triple Dtypes.close_references).
  - reflexivity.
  - reflexivity.
  - discriminate.
Defined.

(** C9. When the reference set has as many names as embeddings, every
    index [find_closest] produces is a valid index into the names, and the
    lookup [reference.names[i] for i in best_matches] raises nothing. *)
Theorem best_matches_index_names {dt : np.dtype} (e : np.ndarray) (ref : Reference)
        (bm : list nat) (ds : list Z) :
  length (names ref) = np.nrows (embeddings ref) ->
  find_closest e (embeddings ref) = inr (bm, ds) ->
  Forall (fun j => (j < length (names ref))%nat) bm
  /\ exists ns, mapM (getitem (names ref)) bm = inr ns
                /\ length ns = length bm.
Proof.
  intros Hlen Hfc.
  destruct (find_closest_lengths _ _ _ _ Hfc) as (_ & _ & Hin).
  rewrite <- Hlen in Hin. split; [exact Hin |].
  destruct (mapM_total (getitem (names ref)) bm) as (ns & Hns).
  - eapply Forall_impl; [| exact Hin]. intros j Hj.
    apply nth_error_Some in Hj.
    destruct (nth_error (names ref) j) as [n |] eqn:Hn; [| congruence].
    exists n. apply getitem_inr. exact Hn.
  - exists ns. split; [exact Hns |].
    apply mapM_inr, Forall2_length in Hns. symmetry. exact Hns.
Qed.

Lemma best_matches_index_names_witness :
  Forall (fun j => (j < 2)%nat) [0; 1; 0]%nat
  /\ exists ns, mapM (getitem (names Scene.reference)) [0; 1; 0]%nat = inr ns
                /\ length ns = 3%nat.
Proof.
  apply (best_matches_index_names Scene.candidates Scene.reference
                                  [0; 1; 0]%nat [1; 1; 1]).
  - reflexivity.
  - reflexivity.
Defined.

(** The sort key does not look at the threshold, so two thresholds give
    the same order, and the entries differ as [raised] says. *)
Lemma raised_sorted (t1 t2 : Z) (xs : list (nat * (Box * string * Z))) :
  t1 <= t2 ->
  Forall2 raised (sorted left_edge (map (entry t1) xs))
                 (sorted left_edge (map (entry t2) xs)).
Proof.
  intros Ht. rewrite !sorted_map.
  rewrite (sorted_ext (fun x => left_edge (entry t1 x))
                      (fun x => left_edge (entry t2 x)))
    by (intros (i & (b & n) & s); reflexivity).
  generalize (sorted (fun x => left_edge (entry t2 x)) xs). intros l.
  induction l as [| (i & (b & n) & s) l IH]; simpl; constructor; [| exact IH].
  unfold raised. simpl.
  destruct (Z.ltb_spec t1 s), (Z.ltb_spec t2 s); try lia;
    repeat split; auto.
Qed.

(** * The match assembler *)

Section Assembler.

Context {Image FaceImage : Type} {dt : np.dtype}.
Implicit Types (self : FaceMatcher Image FaceImage) (img : Image).
Implicit Types (t : Z) (log : list call).

(** C2. In a successful run, every detected face that has a best score
    has an entry, and every entry obeys the decision rule on the score [s]
    of its face: above the threshold the label is the matched reference
    name and the score is [s] itself; at or below the threshold the label
    is "unknown" and the score is -1. *)
Theorem recoginze_threshold_rule self img t log log' result bm ds :
  recoginze self img t log = (log', inr result) ->
  find_closest (encoded self img) (embeddings (reference self)) = inr (bm, ds) ->
  (forall i, (i < length (find_faces self img))%nat -> (i < length ds)%nat ->
             exists d, In d result /\ id d = i)
  /\ forall d, In d result ->
       exists j s name,
         nth_error bm (id d) = Some j
         /\ nth_error ds (id d) = Some s
         /\ nth_error (names (reference self)) j = Some name
         /\ (t < s -> best_match d = name /\ distance d = s)
         /\ (s <= t -> best_match d = unknown /\ distance d = -1).
Proof.
  intros Hrun Hfc.
  destruct (find_faces self img) as [| f fs] eqn:Hf.
  - rewrite (recoginze_nil _ _ _ _ _ _ Hf Hrun).
    split; [intros i Hi; simpl in Hi; lia | intros d []].
  - assert (Hne : find_faces self img <> []) by (rewrite Hf; discriminate).
    destruct (recoginze_result _ _ _ _ _ _ _ _ Hrun Hne Hfc) as (ns & Hns & ->).
    rewrite Hf. split.
    + intros i Hi Hds.
      destruct (find_closest_lengths _ _ _ _ Hfc) as (Hbm & Hds' & _).
      destruct (comprehension_has t (map box (f :: fs)) ns ds i) as (d & Hd & Hid).
      * rewrite length_map. exact Hi.
      * rewrite <- (Forall2_length Hns). lia.
      * exact Hds.
      * exists d. split; [| exact Hid].
        apply (Permutation_in _ (Permutation_sym (sorted_perm _ _))), Hd.
    + intros d Hd.
      apply (Permutation_in _ (sorted_perm _ _)) in Hd.
      apply In_comprehension in Hd.
      destruct Hd as (n & s & _ & Hn & Hs & Hlabel & Hscore).
      destruct (Forall2_nth_error_r _ _ _ Hns _ _ Hn) as (j & Hj & Hname).
      exists j, s, n.
      split; [exact Hj | split; [exact Hs | split; [exact Hname | split]]].
      * intros Hlt. apply Z.ltb_lt in Hlt. rewrite Hlt in Hlabel, Hscore.
        split; assumption.
      * intros Hle. apply Z.ltb_ge in Hle. rewrite Hle in Hlabel, Hscore.
        split; assumption.
Qed.

(** C4. The result of a successful run goes from left to right: of two
    entries, the earlier one has the smaller or equal left edge, and among
    equal left edges the smaller identifier; both are the boxes of the
    detected faces their identifiers number, so equal left edges keep
    detection order. *)
Theorem recoginze_left_to_right self img t log log' result :
  recoginze self img t log = (log', inr result) ->
  forall p q a b, (p < q)%nat ->
    nth_error result p = Some a -> nth_error result q = Some b ->
    nth_error (map box (find_faces self img)) (id a) = Some (coordinates a)
    /\ nth_error (map box (find_faces self img)) (id b) = Some (coordinates b)
    /\ box_getitem0 (coordinates a) <= box_getitem0 (coordinates b)
    /\ (box_getitem0 (coordinates a) = box_getitem0 (coordinates b) ->
        (id a < id b)%nat).
Proof.
  intros Hrun p q a b Hpq Ha Hb.
  destruct (find_faces self img) as [| f fs] eqn:Hf.
  - rewrite (recoginze_nil _ _ _ _ _ _ Hf Hrun) in Ha.
    destruct p; discriminate.
  - assert (Hne : find_faces self img <> []) by (rewrite Hf; discriminate).
    destruct (recoginze_inv _ _ _ _ _ _ Hrun Hne) as (bm & ds & ns & _ & _ & ->).
    rewrite Hf in *.
    assert (Hbox : forall d, In d (sorted left_edge
                                     (comprehension t (map box (f :: fs)) ns ds)) ->
              nth_error (map box (f :: fs)) (id d) = Some (coordinates d)).
    { intros d Hd. apply (Permutation_in _ (sorted_perm _ _)) in Hd.
      apply In_comprehension in Hd. destruct Hd as (n & s & H & _). exact H. }
    split; [apply Hbox; eapply nth_error_In; exact Ha |].
    split; [apply Hbox; eapply nth_error_In; exact Hb |].
    pose proof (sorted_stable left_edge _ _
                  (comprehension_ids_increase t (map box (f :: fs)) ns ds)) as Hs.
    pose proof (StronglySorted_nth_error _ _ Hs p q a b Hpq Ha Hb) as Hab.
    unfold key_then_before, left_edge in Hab.
    destruct Hab as [Hlt | (Heq & Hid)]; split; lia.
Qed.

(** C6. When the detector finds no face, [recoginze] returns the empty
    list, and the detector's is the only call it makes: neither the
    encoder nor [find_closest] is invoked. *)
Theorem recoginze_no_faces self img t log :
  find_faces self img = [] ->
  recoginze self img t log = (log ++ [call_find_faces], inr []).
Proof.
  intros Hf. rewrite recoginze_run, Hf. reflexivity.
Qed.

(** C7, amended. A successful run in which the encoder returned at least
    as many embeddings as faces were detected returns exactly as many
    entries as faces. *)
Theorem recoginze_length self img t log log' result :
  (length (find_faces self img) <= np.nrows (encoded self img))%nat ->
  recoginze self img t log = (log', inr result) ->
  length result = length (find_faces self img).
Proof.
  intros Henc Hrun.
  destruct (find_faces self img) as [| f fs] eqn:Hf.
  - rewrite (recoginze_nil _ _ _ _ _ _ Hf Hrun). reflexivity.
  - assert (Hne : find_faces self img <> []) by (rewrite Hf; discriminate).
    destruct (recoginze_inv _ _ _ _ _ _ Hrun Hne)
      as (bm & ds & ns & Hfc & Hns & ->).
    destruct (find_closest_lengths _ _ _ _ Hfc) as (Hbm & Hds & _).
    rewrite (Permutation_length (sorted_perm _ _)), length_comprehension.
    rewrite <- (Forall2_length Hns), Hbm, Hds, Hf, length_map.
    lia.
Qed.

(** C8, amended. Identifiers are given before sorting: each entry's
    identifier is the detection index of the face whose box it carries,
    and, in a successful run in which the encoder returned at least as
    many embeddings as faces were detected, the identifiers of the result
    are a permutation of 0..N-1. *)
Theorem recoginze_ids_detection_order self img t log log' result :
  (length (find_faces self img) <= np.nrows (encoded self img))%nat ->
  recoginze self img t log = (log', inr result) ->
  Permutation (map id result) (seq 0 (length (find_faces self img)))
  /\ forall d, In d result ->
       exists face, nth_error (find_faces self img) (id d) = Some face
                    /\ coordinates d = box face.
Proof.
  intros Henc Hrun.
  destruct (find_faces self img) as [| f fs] eqn:Hf.
  - rewrite (recoginze_nil _ _ _ _ _ _ Hf Hrun).
    split; [constructor | intros d []].
  - assert (Hne : find_faces self img <> []) by (rewrite Hf; discriminate).
    destruct (recoginze_inv _ _ _ _ _ _ Hrun Hne)
      as (bm & ds & ns & Hfc & Hns & ->).
    destruct (find_closest_lengths _ _ _ _ Hfc) as (Hbm & Hds & _).
    rewrite Hf in *. split.
    + eapply perm_trans; [apply Permutation_map, sorted_perm |].
      rewrite map_id_comprehension, length_comprehension.
      rewrite <- (Forall2_length Hns), Hbm, Hds, length_map, Nat.min_id.
      rewrite Nat.min_l by exact Henc. apply Permutation_refl.
    + intros d Hd. apply (Permutation_in _ (sorted_perm _ _)) in Hd.
      apply In_comprehension in Hd. destruct Hd as (n & s & Hbox & _).
      rewrite nth_error_map in Hbox.
      destruct (nth_error (f :: fs) (id d)) as [face |]; [| discriminate].
      exists face. split; [reflexivity |].
      injection Hbox as Hbox. symmetry. exact Hbox.
Qed.

(** C10, amended. Raising the threshold from [t1] to [t2] leaves the
    outcome of the run, the log, the length and the order of the result
    alone; entry by entry, identifier and box are the same, an "unknown"
    stays "unknown", and label and score are either both the same or both
    the sentinels "unknown" and -1. *)
Theorem recoginze_threshold_monotone self img t1 t2 log log' r1 :
  t1 <= t2 ->
  recoginze self img t1 log = (log', inr r1) ->
  exists r2,
    recoginze self img t2 log = (log', inr r2) /\ Forall2 raised r1 r2.
Proof.
  intros Ht. rewrite !recoginze_run.
  destruct (find_faces self img) as [| f fs].
  - intros H. injection H as <- <-. exists []. split; [reflexivity | constructor].
  - cbv zeta.
    destruct (find_closest _ _) as [e | (bm, ds)]; [discriminate |].
    destruct (mapM _ bm) as [e | ns]; [discriminate |].
    intros H. injection H as <- <-.
    eexists. split; [reflexivity |].
    apply raised_sorted, Ht.
Qed.

End Assembler.

(** * The scene, run *)

Lemma recoginze_threshold_rule_witness :
  (forall i, (i < 3)%nat -> (i < 3)%nat ->
             exists d, In d Scene.lineup /\ id d = i)
  /\ forall d, In d Scene.lineup ->
       exists j s name,
         nth_error [0; 1; 0]%nat (id d) = Some j
         /\ nth_error [1; 1; 1] (id d) = Some s
         /\ nth_error (names Scene.reference) j = Some name
         /\ (0 < s -> best_match d = name /\ distance d = s)
         /\ (s <= 0 -> best_match d = unknown /\ distance d = -1).
Proof.
  apply (recoginze_threshold_rule Scene.matcher tt 0 [] Scene.calls
                                  Scene.lineup [0; 1; 0]%nat [1; 1; 1]).
  - reflexivity.
  - reflexivity.
Defined.

Lemma recoginze_left_to_right_witness :
  let a := mk_dict 1 (10, 20, 40, 60) "bob" 1 in
  let b := mk_dict 0 (50, 20, 90, 60) "alice" 1 in
  nth_error (map box Scene.faces) (id a) = Some (coordinates a)
  /\ nth_error (map box Scene.faces) (id b) = Some (coordinates b)
  /\ box_getitem0 (coordinates a) <= box_getitem0 (coordinates b)
  /\ (box_getitem0 (coordinates a) = box_getitem0 (coordinates b) ->
      (id a < id b)%nat).
Proof.
  apply (recoginze_left_to_right (dt := np.object_) Scene.matcher tt 0 []
                                 Scene.calls Scene.lineup eq_refl 0%nat 2%nat).
  - lia.
  - reflexivity.
  - reflexivity.
Defined.

Lemma recoginze_no_faces_witness :
  recoginze Scene.blind tt 0 [] = ([call_find_faces], inr []).
Proof.
  apply (recoginze_no_faces Scene.blind tt 0 []).
  reflexivity.
Defined.

Lemma recoginze_length_witness : length Scene.lineup = 3%nat.
Proof.
  apply (recoginze_length Scene.matcher tt 0 [] Scene.calls Scene.lineup).
  - reflexivity.
  - reflexivity.
Defined.

(** In the scene the identifiers come out as 1, 2, 0: detection order, not
    output position. *)
Lemma recoginze_ids_detection_order_witness :
  Permutation [1; 2; 0]%nat (seq 0 3)
  /\ forall d, In d Scene.lineup ->
       exists face, nth_error Scene.faces (id d) = Some face
                    /\ coordinates d = box face.
Proof.
  apply (recoginze_ids_detection_order Scene.matcher tt 0 [] Scene.calls
                                       Scene.lineup).
  - reflexivity.
  - reflexivity.
Defined.

Lemma recoginze_threshold_monotone_witness :
  exists r2,
    recoginze Scene.matcher tt 1 [] = (Scene.calls, inr r2)
    /\ Forall2 raised Scene.lineup r2.
Proof.
  apply (recoginze_threshold_monotone Scene.matcher tt 0 1 [] Scene.calls
                                      Scene.lineup).
  - lia.
  - reflexivity.
Defined.

(** C7 as stated fails: an encoder that returns two embeddings for three
    faces makes a successful run return two entries. *)
Lemma short_encoder_drops_a_face :
  recoginze Faults.short_encoder tt 0 [] = (engine_calls, inr Faults.short_lineup)
  /\ length Faults.short_lineup <> length (find_faces Faults.short_encoder tt).
Proof.
  split; [reflexivity | discriminate].
Qed.

(** C8 as stated fails: in the same run the identifiers are 1 and 0, no
    permutation of 0, 1, 2. *)
Lemma short_encoder_skips_an_id :
  recoginze Faults.short_encoder tt 0 [] = (engine_calls, inr Faults.short_lineup)
  /\ ~ Permutation (map id Faults.short_lineup)
                   (seq 0 (length (find_faces Faults.short_encoder tt))).
Proof.
  split; [reflexivity |].
  intros H. apply Permutation_length in H. discriminate.
Qed.

(** C10 as stated fails: between thresholds 0 and 1 the scores of the scene
    turn from 1 into -1, so the two results do not agree on every field but
    the label. *)
Lemma threshold_changes_distance :
  0 <= 1 /\ ~ threshold_only_changes_label Scene.matcher tt 0 1.
Proof.
  split; [lia |]. intros H.
  specialize (H [] Scene.calls Scene.calls Scene.lineup Scene.strangers
                eq_refl eq_refl).
  inversion H as [| a b l l' (_ & _ & _ & Hd) _]; subst.
  simpl in Hd. discriminate.
Qed.

(** * Beyond the claims: the engine *)

(** [find_closest], case by case. *)
Lemma find_closest_unfold {dt : np.dtype} (e r : np.ndarray) :
  find_closest e r
  = if Nat.eqb (np.ncols e) (np.ncols r)
    then if Nat.eqb (np.nrows r) 0
         then inl ValueError
         else inr (map (fun u => np.argmax_row
                                   (map (fun j => np.inner u (np.column (np.T r) j))
                                        (seq 0 (np.nrows r))))
                       (np.rows e),
                   map (fun u => np.max_row
                                   (map (fun j => np.inner u (np.column (np.T r) j))
                                        (seq 0 (np.nrows r))))
                       (np.rows e))
    else inl ValueError.
Proof.
  unfold find_closest, np.dot, np.argmax_axis1, np.max_axis1.
  rewrite nrows_T.
  destruct (Nat.eqb (np.ncols e) (np.ncols r)); simpl; [| reflexivity].
  destruct (Nat.eqb (np.nrows r) 0); simpl; [reflexivity |].
  rewrite !map_map. reflexivity.
Qed.

Lemma nrows_0_iff (r : np.ndarray) : np.nrows r = 0%nat <-> np.rows r = [].
Proof. unfold np.nrows. apply length_zero_iff_nil. Qed.

(** X1. [find_closest] returns a result exactly when the two arrays have
    the same number of columns and there is at least one reference; in
    every other case the exception is [ValueError]. *)
Theorem find_closest_succeeds_iff {dt : np.dtype} (e r : np.ndarray) :
  ((exists bm ds, find_closest e r = inr (bm, ds))
   <-> np.ncols e = np.ncols r /\ np.rows r <> [])
  /\ forall x, find_closest e r = inl x -> x = ValueError.
Proof.
  rewrite find_closest_unfold.
  destruct (Nat.eqb_spec (np.ncols e) (np.ncols r)) as [Hd | Hd].
  - destruct (Nat.eqb_spec (np.nrows r) 0) as [Hm | Hm].
    + apply nrows_0_iff in Hm. split.
      * split; [intros (bm & ds & H); discriminate | intros (_ & H); contradiction].
      * intros x H. injection H as <-. reflexivity.
    + split.
      * split; [intros _ | intros _; eexists; eexists; reflexivity].
        split; [exact Hd | intros H; apply Hm, nrows_0_iff, H].
      * intros x H. discriminate.
  - split.
    + split; [intros (bm & ds & H); discriminate | intros (H & _); contradiction].
    + intros x H. injection H as <-. reflexivity.
Qed.

(** X2. An empty batch of candidates is accepted: against at least one
    reference of its dimension, [find_closest] returns two empty
    sequences. *)
Theorem find_closest_no_candidate {dt : np.dtype} (D : nat) (r : np.ndarray) :
  np.ncols r = D ->
  np.rows r <> [] ->
  find_closest (np.mk_ndarray D []) r = inr ([], []).
Proof.
  intros Hd Hr. rewrite find_closest_unfold. simpl.
  destruct (Nat.eqb_spec D (np.ncols r)) as [_ | Hn]; [| congruence].
  destruct (Nat.eqb_spec (np.nrows r) 0) as [Hm | _]; [| reflexivity].
  apply nrows_0_iff in Hm. contradiction.
Qed.

Lemma find_closest_no_candidate_witness :
  find_closest (np.mk_ndarray 2 []) Scene.references = inr ([], []).
Proof.
  apply (find_closest_no_candidate 2 Scene.references).
  - reflexivity.
  - discriminate.
Defined.



(** *** Growing the reference set *)

Lemma argmax_from_app (l l' : list Z) :
  forall best_i best i,
    np.argmax_from best_i best i (l ++ l')
    = np.argmax_from (np.argmax_from best_i best i l) (fold_left Z.max l best)
                     (i + length l) l'.
Proof.
  induction l as [| x t IH]; intros best_i best i; simpl.
  - rewrite Nat.add_0_r. reflexivity.
  - rewrite Nat.add_succ_r.
    destruct (Z.ltb_spec best x) as [Hlt | Hge].
    + replace (Z.max best x) with x by lia. apply IH.
    + replace (Z.max best x) with best by lia. apply IH.
Qed.

(** Entries added at the end of a row either leave index and maximum
    alone, or move the index among them and raise the maximum. *)
Lemma argmax_row_app (l l' : list Z) :
  l <> [] ->
  (np.argmax_row (l ++ l') = np.argmax_row l
   /\ np.max_row (l ++ l') = np.max_row l)
  \/ ((length l <= np.argmax_row (l ++ l'))%nat
      /\ np.max_row l < np.max_row (l ++ l')).
Proof.
  destruct l as [| x t]; [congruence | intros _]. simpl.
  rewrite argmax_from_app, fold_left_app.
  destruct (argmax_from_spec l' (np.argmax_from 0 x 1 t) (fold_left Z.max t x)
                             (1 + length t))
    as [(Hj & Hm & _) | (k & Hj & _ & Hb & _)].
  - left. split; assumption.
  - right. rewrite Hj. split; [lia | exact Hb].
Qed.

Lemma rectangular_app (D : nat) (a b : list (list Z)) :
  np.rectangular (np.mk_ndarray D (a ++ b)) = true ->
  np.rectangular (np.mk_ndarray D a) = true.
Proof.
  unfold np.rectangular. simpl. rewrite forallb_app.
  intros H. apply andb_true_iff in H. apply H.
Qed.

(** X5. References added after the existing ones never lower a best
    score, and displace an existing match only by a strictly greater
    score: row by row, either index and score are unchanged, or the new
    index is one of the added references and the new score is strictly
    greater. *)
Theorem find_closest_more_references {dt : np.dtype} (e : np.ndarray) (D : nat)
        (rs extra : list (list Z)) :
  np.ncols e = D ->
  np.rectangular (np.mk_ndarray D (rs ++ extra)) = true ->
  rs <> [] ->
  exists bm ds bm' ds',
    find_closest e (np.mk_ndarray D rs) = inr (bm, ds)
    /\ find_closest e (np.mk_ndarray D (rs ++ extra)) = inr (bm', ds')
    /\ forall i j s j' s',
         nth_error bm i = Some j -> nth_error ds i = Some s ->
         nth_error bm' i = Some j' -> nth_error ds' i = Some s' ->
         (j' = j /\ s' = s) \/ ((length rs <= j')%nat /\ s < s').
Proof.
  intros Hd Hrect Hrs.
  assert (Hrs' : rs ++ extra <> []).
  { destruct rs; [congruence | discriminate]. }
  pose proof (find_closest_eq e (np.mk_ndarray D rs) Hd
                              (rectangular_app _ _ _ Hrect) Hrs) as H1.
  pose proof (find_closest_eq e (np.mk_ndarray D (rs ++ extra)) Hd Hrect Hrs')
    as H2.
  simpl in H1, H2.
  eexists. eexists. eexists. eexists.
  split; [exact H1 | split; [exact H2 |]].
  intros i j s j' s'. rewrite !nth_error_map.
  destruct (nth_error (np.rows e) i) as [u |]; simpl; [| discriminate].
  intros Hj Hs Hj' Hs'.
  injection Hj as <-. injection Hs as <-.
  injection Hj' as <-. injection Hs' as <-.
  rewrite map_app.
  assert (Hrow : map (np.inner u) rs <> []).
  { destruct rs; [congruence | discriminate]. }
  destruct (argmax_row_app _ (map (np.inner u) extra) Hrow)
    as [(Ha & Hm) | (Ha & Hm)].
  - left. split; assumption.
  - right. rewrite length_map in Ha. split; assumption.
Qed.

Lemma find_closest_more_references_witness :
  exists bm ds bm' ds',
    find_closest Scene.candidates (np.mk_ndarray 2 [[1; 0]; [0; 1]])
    = inr (bm, ds)
    /\ find_closest Scene.candidates
                    (np.mk_ndarray 2 ([[1; 0]; [0; 1]] ++ Faults.newcomer))
       = inr (bm', ds')
    /\ forall i j s j' s',
         nth_error bm i = Some j -> nth_error ds i = Some s ->
         nth_error bm' i = Some j' -> nth_error ds' i = Some s' ->
         (j' = j /\ s' = s) \/ ((2 <= j')%nat /\ s < s').
Proof.
  apply (find_closest_more_references Scene.candidates 2
                                      [[1; 0]; [0; 1]] Faults.newcomer).
  - reflexivity.
  - reflexivity.
  - discriminate.
Defined.

(** * Beyond the claims: the assembler *)

Lemma Forall2_Forall_l {A B} (R : A -> B -> Prop) (P : A -> Prop)
      (l : list A) (l' : list B) :
  (forall a b, R a b -> P a) -> Forall2 R l l' -> Forall P l.
Proof.
  intros HR. induction 1 as [| a b l l' Hab _ IH]; constructor;
    [eapply HR; exact Hab | exact IH].
Qed.

(** [getitem] raises nothing but [IndexError], as soon as one index is out
    of range. *)
Lemma mapM_getitem_fail {A} (l : list A) (bm : list nat) :
  Exists (fun j => (length l <= j)%nat) bm ->
  mapM (getitem l) bm = inl IndexError.
Proof.
  induction bm as [| j t IH]; intros H.
  - inversion H.
  - simpl. unfold getitem at 1.
    destruct (nth_error l j) as [a |] eqn:Hj; simpl; [| reflexivity].
    rewrite IH; [reflexivity |].
    apply Exists_cons in H. destruct H as [H | H]; [| exact H].
    apply nth_error_None in H. congruence.
Qed.

Section Edges.

Context {Image FaceImage : Type} {dt : np.dtype}.
Implicit Types (self : FaceMatcher Image FaceImage) (img : Image).
Implicit Types (t : Z) (log : list call).

(** X6. In a run whose detector and encoder return (the model has no
    other), whether [find_closest] and the name lookup then succeed or
    raise and whatever the threshold: the log grows by the detector call
    alone when no face is found, and otherwise by exactly one call each of
    the detector, the encoder and [find_closest], in this order. *)
Theorem recoginze_calls self img t log :
  fst (recoginze self img t log)
  = log ++ match find_faces self img with
           | [] => [call_find_faces]
           | _ :: _ => engine_calls
           end.
Proof.
  rewrite recoginze_run.
  destruct (find_faces self img) as [| f fs]; [reflexivity |].
  cbv zeta.
  destruct (find_closest _ _) as [e | (bm, ds)].
  - simpl. rewrite <- !app_assoc. reflexivity.
  - destruct (mapM _ bm) as [e | ns]; simpl; rewrite <- !app_assoc; reflexivity.
Qed.

(** X7. The guard on an empty detection hides an empty reference set: with
    no reference embedding, a run that finds at least one face raises
    [ValueError] after calling detector, encoder and engine, and returns
    no entry. *)
Theorem recoginze_no_reference self img t log :
  find_faces self img <> [] ->
  np.rows (embeddings (reference self)) = [] ->
  recoginze self img t log = (log ++ engine_calls, inl ValueError).
Proof.
  intros Hne Hr. rewrite recoginze_run.
  destruct (find_faces self img) as [| f fs] eqn:Hf; [congruence |].
  cbv zeta. rewrite find_closest_unfold.
  apply nrows_0_iff in Hr. rewrite Hr. simpl.
  rewrite <- !app_assoc.
  destruct (Nat.eqb _ _); reflexivity.
Qed.

(** X8. A run returns a result exactly when no face is found, or
    [find_closest] succeeds and every best index is below the number of
    names; the threshold plays no part in it. *)
Theorem recoginze_succeeds_iff self img t log :
  (exists log' result, recoginze self img t log = (log', inr result))
  <-> find_faces self img = []
      \/ exists bm ds,
           find_closest (encoded self img) (embeddings (reference self))
           = inr (bm, ds)
           /\ Forall (fun j => (j < length (names (reference self)))%nat) bm.
Proof.
  split.
  - intros (log' & result & Hrun).
    destruct (find_faces self img) as [| f fs] eqn:Hf; [left; reflexivity |].
    right.
    assert (Hne : find_faces self img <> []) by (rewrite Hf; discriminate).
    destruct (recoginze_inv _ _ _ _ _ _ Hrun Hne) as (bm & ds & ns & Hfc & Hns & _).
    exists bm, ds. split; [exact Hfc |].
    eapply Forall2_Forall_l; [| exact Hns].
    intros j n Hj. apply nth_error_Some. congruence.
  - rewrite recoginze_run. intros [Hf | (bm & ds & Hfc & Hin)].
    + rewrite Hf. eexists. eexists. reflexivity.
    + destruct (find_faces self img) as [| f fs];
        [eexists; eexists; reflexivity |].
      cbv zeta. rewrite Hfc.
      destruct (mapM_total (getitem (names (reference self))) bm) as (ns & Hns).
      * eapply Forall_impl; [| exact Hin]. intros j Hj.
        apply nth_error_Some in Hj.
        destruct (nth_error (names (reference self)) j) as [n |] eqn:Hn;
          [| congruence].
        exists n. apply getitem_inr. exact Hn.
      * rewrite Hns. eexists. eexists. reflexivity.
Qed.

(** X9. When some best index is not below the number of names, a run that
    finds a face raises [IndexError] and returns no entry. *)
Theorem recoginze_missing_name self img t log bm ds :
  find_faces self img <> [] ->
  find_closest (encoded self img) (embeddings (reference self)) = inr (bm, ds) ->
  Exists (fun j => (length (names (reference self)) <= j)%nat) bm ->
  recoginze self img t log = (log ++ engine_calls, inl IndexError).
Proof.
  intros Hne Hfc Hex. rewrite recoginze_run.
  destruct (find_faces self img) as [| f fs]; [congruence |].
  cbv zeta. rewrite Hfc, (mapM_getitem_fail _ _ Hex).
  rewrite <- !app_assoc. reflexivity.
Qed.

(** X10. The result is as long as the shorter of the detection and the
    encoder's output: surplus faces or surplus embeddings are dropped
    without an error. *)
Theorem recoginze_length_min self img t log log' result :
  recoginze self img t log = (log', inr result) ->
  length result
  = Nat.min (length (find_faces self img)) (np.nrows (encoded self img)).
Proof.
  intros Hrun.
  destruct (find_faces self img) as [| f fs] eqn:Hf.
  - rewrite (recoginze_nil _ _ _ _ _ _ Hf Hrun). reflexivity.
  - assert (Hne : find_faces self img <> []) by (rewrite Hf; discriminate).
    destruct (recoginze_inv _ _ _ _ _ _ Hrun Hne)
      as (bm & ds & ns & Hfc & Hns & ->).
    destruct (find_closest_lengths _ _ _ _ Hfc) as (Hbm & Hds & _).
    rewrite (Permutation_length (sorted_perm _ _)), length_comprehension.
    rewrite <- (Forall2_length Hns), Hbm, Hds, Hf, length_map, Nat.min_id.
    reflexivity.
Qed.

(** X11. The identifiers of a result of length k are a permutation of
    0..k-1, whatever the encoder returned. *)
Theorem recoginze_ids_contiguous self img t log log' result :
  recoginze self img t log = (log', inr result) ->
  Permutation (map id result) (seq 0 (length result)).
Proof.
  intros Hrun.
  destruct (find_faces self img) as [| f fs] eqn:Hf.
  - rewrite (recoginze_nil _ _ _ _ _ _ Hf Hrun). constructor.
  - assert (Hne : find_faces self img <> []) by (rewrite Hf; discriminate).
    destruct (recoginze_inv _ _ _ _ _ _ Hrun Hne)
      as (bm & ds & ns & _ & _ & ->).
    rewrite (Permutation_length (sorted_perm _ _)), <- map_id_comprehension.
    apply Permutation_map, sorted_perm.
Qed.

(** X12. Every entry is one of two kinds: the pair "unknown" and -1, or
    the name of a reference with a score strictly above the threshold.
    So with a threshold of -1 or more the score -1 always means
    "unknown". *)
Theorem recoginze_entry_kinds self img t log log' result (d : Dict) :
  recoginze self img t log = (log', inr result) ->
  In d result ->
  ((best_match d = unknown /\ distance d = -1)
   \/ (In (best_match d) (names (reference self)) /\ t < distance d))
  /\ (-1 <= t -> distance d = -1 -> best_match d = unknown).
Proof.
  intros Hrun Hd.
  destruct (find_faces self img) as [| f fs] eqn:Hf.
  - rewrite (recoginze_nil _ _ _ _ _ _ Hf Hrun) in Hd. destruct Hd.
  - assert (Hne : find_faces self img <> []) by (rewrite Hf; discriminate).
    destruct (recoginze_inv _ _ _ _ _ _ Hrun Hne)
      as (bm & ds & ns & _ & Hns & ->).
    apply (Permutation_in _ (sorted_perm _ _)) in Hd.
    apply In_comprehension in Hd.
    destruct Hd as (n & s & _ & Hn & _ & Hlabel & Hscore).
    destruct (Forall2_nth_error_r _ _ _ Hns _ _ Hn) as (j & _ & Hname).
    rewrite Hlabel, Hscore.
    destruct (Z.ltb_spec t s) as [Hlt | Hge].
    + split; [right; split; [eapply nth_error_In; exact Hname | exact Hlt] |].
      intros Ht Hs. lia.
    + split; [left; split; reflexivity | intros _ _; reflexivity].
Qed.

End Edges.

(** * The edge cases, run *)

Lemma recoginze_no_reference_witness :
  recoginze Faults.no_reference tt 0 [] = ([] ++ engine_calls, inl ValueError).
Proof.
  apply (recoginze_no_reference Faults.no_reference tt 0 []).
  - discriminate.
  - reflexivity.
Defined.

Lemma recoginze_missing_name_witness :
  recoginze Faults.one_name tt 0 [] = ([] ++ engine_calls, inl IndexError).
Proof.
  apply (recoginze_missing_name Faults.one_name tt 0 [] [0; 1; 0]%nat [1; 1; 1]).
  - discriminate.
  - reflexivity.
  - apply Exists_cons_tl, Exists_cons_hd. simpl. lia.
Defined.

Lemma recoginze_length_min_witness :
  length Faults.short_lineup = Nat.min 3 2.
Proof.
  apply (recoginze_length_min Faults.short_encoder tt 0 [] engine_calls
                              Faults.short_lineup).
  reflexivity.
Defined.

Lemma recoginze_ids_contiguous_witness :
  Permutation (map id Faults.short_lineup) (seq 0 2).
Proof.
  apply (recoginze_ids_contiguous Faults.short_encoder tt 0 [] engine_calls
                                  Faults.short_lineup).
  reflexivity.
Defined.

Lemma recoginze_entry_kinds_witness :
  let d := mk_dict 1 (10, 20, 40, 60) "bob" 1 in
  ((best_match d = unknown /\ distance d = -1)
   \/ (In (best_match d) (names Scene.reference) /\ 0 < distance d))
  /\ (-1 <= 0 -> distance d = -1 -> best_match d = unknown).
Proof.
  apply (recoginze_entry_kinds Scene.matcher tt 0 [] Scene.calls Scene.lineup).
  - reflexivity.
  - left. reflexivity.
Defined.
